(** * The md gallery: image optimisation pipeline and year filter

    A shallow embedding of

    - [.github/scripts/optimize-images.js], the build script that converts
      static images with Sharp and GIFs with FFmpeg and writes [index.json];
    - the year filter of [script.js] ([basename], [yearFromItem],
      [applyFiltersAndRender]), which reads that manifest in the browser.

    The build script is modelled as a computation over an explicit state
    (the files of the disk, the array [indexData], the trace of what has
    happened) that may return, throw, exit the process, or never come
    back.  What lies outside the script is a parameter of the run
    ([Env]): which files the glob finds, what a command does when spawned
    (exit after some time with a status, fail to start, never exit),
    whether a Sharp encode resolves, whether a copy goes through.

    Modelling choices:
    - JavaScript strings are [string]s (bytes); the case mapping acts on
      ASCII letters, which is all the comparisons of the scripts depend on.
    - Node's [path] module is modelled for POSIX and for the paths a glob
      returns (relative, normalised, naming a file).
    - A command that exits with status 0, and a Sharp encode that
      resolves, have written their output file; a failed one leaves the
      disk as it was.  Nothing in the script deletes a file.
    - Sharp and FFmpeg are not part of the repository: a file they wrote
      is known by the job or the command line that produced it, not by
      its pixels.
    - [fs.mkdirSync] and the final [fs.writeFileSync] go through.
    - The two encodes of one [Promise.all] are both started and both
      settle before the [await] returns or throws. *)

From Stdlib Require Import Ascii.
From stdpp Require Import gmap strings list.

(** ** JavaScript string primitives *)

Module Str.

Definition is_upper (c : ascii) : bool :=
  let n := nat_of_ascii c in (65 <=? n) && (n <=? 90).

Definition lower_char (c : ascii) : ascii :=
  if is_upper c then ascii_of_nat (nat_of_ascii c + 32) else c.

(** [s.toLowerCase()] *)
Fixpoint toLowerCase (s : string) : string :=
  match s with
  | EmptyString => EmptyString
  | String c r => String (lower_char c) (toLowerCase r)
  end.

(** [s.split(sep)] for a one-character separator; never the empty array. *)
Fixpoint split (sep : ascii) (s : string) : list string :=
  match s with
  | EmptyString => [EmptyString]
  | String c r =>
      if Ascii.eqb c sep then EmptyString :: split sep r
      else match split sep r with
           | [] => [String c EmptyString]
           | h :: t => String c h :: t
           end
  end.

(** [s.slice(0, n)] *)
Fixpoint slice0 (n : nat) (s : string) : string :=
  match n, s with
  | S k, String c r => String c (slice0 k r)
  | _, _ => EmptyString
  end.

Definition backslash : ascii := ascii_of_nat 92.

(** [s.replace(re, "/")] where [re] matches every backslash. *)
Fixpoint replace_backslashes (s : string) : string :=
  match s with
  | EmptyString => EmptyString
  | String c r =>
      String (if Ascii.eqb c backslash then "/"%char else c) (replace_backslashes r)
  end.

(** [s.includes(c)] for a one-character [c]. *)
Fixpoint includes (c : ascii) (s : string) : bool :=
  match s with
  | EmptyString => false
  | String a r => Ascii.eqb a c || includes c r
  end.

(** [s] with the suffix [suf] removed, when it ends with it. *)
Fixpoint strip_suffix (suf s : string) : option string :=
  if String.eqb s suf then Some EmptyString
  else match s with
       | EmptyString => None
       | String c r => String c <$> strip_suffix suf r
       end.

(** The part of [s] from its last ["."] on, when it has one. *)
Fixpoint from_last_dot (s : string) : option string :=
  match s with
  | EmptyString => None
  | String c r =>
      match from_last_dot r with
      | Some e => Some e
      | None => if Ascii.eqb c "."%char then Some s else None
      end
  end.

End Str.

(** ** Node's [path] module (POSIX) *)

Module path.

(** The last component of a path that does not end in a slash. *)
Definition last_segment (p : string) : string :=
  default EmptyString (last (Str.split "/" p)).

(** [path.extname(p)]: from the last dot of the last component, empty when
    there is none, when the component starts with its only candidate dot,
    or when the component is [".."]. *)
Definition extname (p : string) : string :=
  let c := last_segment p in
  if String.eqb c ".." then EmptyString
  else match Str.from_last_dot c with
       | Some e => if String.eqb e c then EmptyString else e
       | None => EmptyString
       end.

(** [path.basename(p, suffix)]: the last component, without [suffix] when
    the component ends with it (compared case-sensitively) and is more than
    it. *)
Definition basename (p suffix : string) : string :=
  let c := last_segment p in
  if String.eqb suffix EmptyString then c
  else if String.eqb suffix p then EmptyString
  else match Str.strip_suffix suffix c with
       | Some stem => if String.eqb stem EmptyString then c else stem
       | None => c
       end.

(** [path.join(dir, name)] for a directory name and a file name. *)
Definition join (dir name : string) : string := dir +:+ "/" +:+ name.

(** [path.relative(".", p)] for a relative, normalised [p]. *)
Definition relative_to_cwd (p : string) : string := p.

End path.

(** ** script.js: the year filter of the gallery *)

Module Gallery.

(** A manifest item as the page reads it back from JSON: [original] may be
    missing. *)
Record Item := { original : option string }.

(** [basename(p)]: the last element of [String(p).split("/")], or the empty
    string. *)
Definition basename (p : string) : string :=
  match last (Str.split "/" p) with
  | Some s => if String.eqb s EmptyString then EmptyString else s
  | None => EmptyString
  end.

Definition is_digit (c : ascii) : bool :=
  let n := nat_of_ascii c in (48 <=? n) && (n <=? 57).

Fixpoint all_digits (s : string) : bool :=
  match s with
  | EmptyString => true
  | String c r => is_digit c && all_digits r
  end.

(** The character class [[-_.]] *)
Definition is_year_sep (c : ascii) : bool :=
  Ascii.eqb c "-"%char || Ascii.eqb c "_"%char || Ascii.eqb c "."%char.

(** [name.match(/^(\d{4})[-_.]/)?.[1]] *)
Definition match_year (name : string) : option string :=
  match name with
  | String a (String b (String c (String d (String s _)))) =>
      if is_digit a && is_digit b && is_digit c && is_digit d && is_year_sep s
      then Some (String a (String b (String c (String d EmptyString))))
      else None
  | _ => None
  end.

(** [yearFromItem(item)]; [None] is JavaScript's [null]. *)
Definition yearFromItem (item : option Item) : option string :=
  let name := basename (default EmptyString (item ≫= original)) in
  match match_year name with
  | Some y => if String.eqb y EmptyString then None else Some y
  | None => None
  end.

(** [filteredItems] as [applyFiltersAndRender] computes it. *)
Definition applyFilters (selectedYear : string) (allItems : list Item) : list Item :=
  if negb (String.eqb selectedYear "ALL")
  then filter (λ it, yearFromItem (Some it) = Some selectedYear) allItems
  else allItems.

End Gallery.


(** ** optimize-images.js: the build pipeline *)

(** *** [child_process.spawnSync] *)

Module child_process.

(** The options object of [spawnSync]. *)
Record Options := { encoding : option string; timeout : option N }.

(** What a child process does when left alone: it cannot be started
    (ENOENT), it exits by itself after some milliseconds, or it never
    exits. *)
Inductive Behaviour :=
| NotFound
| Exits (elapsed_ms : N) (exit_status : Z) (out err : string)
| Hangs.

(** The object [spawnSync] returns; [None] is JavaScript's [null]. *)
Record Result := { status : option Z; stdout : option string; stderr : option string }.

Definition killed : Result :=
  {| status := None; stdout := Some EmptyString; stderr := Some EmptyString |}.

(** [spawnSync] blocks until the child exits, or until the [timeout] option
    (when given) has elapsed and the child has been killed.  It returns
    nothing ([None]) when it blocks for ever.  A child that could not be
    started leaves [status], [stdout] and [stderr] null. *)
Definition spawnSync (b : Behaviour) (o : Options) : option Result :=
  match b with
  | NotFound => Some {| status := None; stdout := None; stderr := None |}
  | Exits ms st out err =>
      match timeout o with
      | Some t => if (t <? ms)%N then Some killed
                  else Some {| status := Some st; stdout := Some out; stderr := Some err |}
      | None => Some {| status := Some st; stdout := Some out; stderr := Some err |}
      end
  | Hangs =>
      match timeout o with
      | Some _ => Some killed
      | None => None
      end
  end.

End child_process.

(** *** Sharp *)

Module sharp.

(** The two shapes of [resize] options the script uses:
    [{ width, withoutEnlargement }] and
    [{ width, height, fit: "cover", position: "centre" }]. *)
Inductive Resize :=
| ResizeWidth (width : N) (withoutEnlargement : bool)
| ResizeCover (width height : N).

Inductive Output :=
| Webp (quality : N)
| Jpeg (quality : N) (mozjpeg : bool).

(** [sharp(input).resize(resize).clone().<output>] *)
Record Job := { input : string; resize : Resize; output : Output }.

End sharp.

Module Pipeline.

Definition srcDir : string := "images".
Definition outDir : string := "images-optimized".
Definition thumbDir : string := "images-thumbs".
Definition indexFile : string := "index.json".

Definition MAX_FFMPEG_MS : N := 90000.

Definition pattern : string :=
  srcDir +:+ "/**/*.+(jpg|jpeg|png|webp|gif|JPG|JPEG|PNG|WEBP|GIF)".

(** The variant paths of one tier: [{ webm }] or [{ webp, jpg }]. *)
Inductive Variants :=
| WebmOnly (webm : string)
| WebpJpg (webp jpg : string).

(** An element of [indexData]. *)
Record Entry := {
  original : string;
  optimized : Variants;
  thumbnail : Variants;
  format : string
}.

(** What a file of the disk holds, by the operation that wrote it. *)
Inductive FileContent :=
| Source
| Video (args : list string)
| Image (job : sharp.Job)
| CopyOf (src : string)
| ManifestJson (entries : list Entry).

Inductive Error :=
| TypeError (what : string)
| EncodeError (job : sharp.Job) (out : string)
| CopyError (src dst : string).

(** The lines the script prints, by the statement that prints them. *)
Inductive Message :=
| FFmpegNotFound
| FFmpegDetected (version : string)
| NoImagesFound
| FoundFiles (n : nat)
| Processing (file : string)
| DetectedGif
| VP9FailedRetrying
| FFmpegFailedFor (file : string)
| StderrExcerpt (text : string)
| CopiedOriginal
| ConvertedFull (out : string)
| ThumbnailFailed (text : string)
| CreatedThumbnail (out : string)
| StaticImage
| ErrorProcessing (file : string) (err : Error)
| Done (n : nat).

(** The observable steps of a run, oldest first. *)
Inductive Event :=
| EvSpawn (cmd : string) (args : list string) (res : child_process.Result)
| EvToFile (job : sharp.Job) (out : string) (succeeded : bool)
| EvCopy (src dst : string) (succeeded : bool)
| EvPush (e : Entry)
| EvWriteFile (file : string) (entries : list Entry)
| EvLog (m : Message).

(** The world the script runs in: file discovery, the behaviour of a
    command on given arguments, whether a Sharp encode of a job to a path
    resolves, whether a copy goes through. *)
Record Env := {
  glob : string → list string;
  process : string → list string → child_process.Behaviour;
  sharp_ok : sharp.Job → string → bool;
  copy_ok : string → string → bool
}.

(** The mutable state: the files and directories of the disk, the array
    [indexData], and the trace of what has happened. *)
Record State := {
  disk : gmap string FileContent;
  dirs : gset string;
  indexData : list Entry;
  trace : list Event
}.

Definition with_disk (d : gmap string FileContent) (s : State) : State :=
  {| disk := d; dirs := dirs s; indexData := indexData s; trace := trace s |}.
Definition with_dirs (d : gset string) (s : State) : State :=
  {| disk := disk s; dirs := d; indexData := indexData s; trace := trace s |}.
Definition with_indexData (l : list Entry) (s : State) : State :=
  {| disk := disk s; dirs := dirs s; indexData := l; trace := trace s |}.
Definition emit (e : Event) (s : State) : State :=
  {| disk := disk s; dirs := dirs s; indexData := indexData s; trace := trace s ++ [e] |}.

(** How a computation ends: it returns, it throws, the process exits, or
    it never comes back. *)
Inductive Res (A : Type) : Type :=
| Ok (a : A) (s : State)
| Throw (e : Error) (s : State)
| Exit (code : Z) (s : State)
| Diverge.
Arguments Ok {A} a s.
Arguments Throw {A} e s.
Arguments Exit {A} code s.
Arguments Diverge {A}.

Definition M (A : Type) : Type := State → Res A.

#[global] Instance M_ret : MRet M := λ A a s, Ok a s.
#[global] Instance M_bind : MBind M := λ A B f m s,
  match m s with
  | Ok a s' => f a s'
  | Throw e s' => Throw e s'
  | Exit c s' => Exit c s'
  | Diverge => Diverge
  end.

Definition throw {A} (e : Error) : M A := λ s, Throw e s.
Definition exit {A} (code : Z) : M A := λ s, Exit code s.

(** [try { body } catch (err) { handler }] *)
Definition tryCatch (body : M unit) (handler : Error → M unit) : M unit := λ s,
  match body s with
  | Throw e s' => handler e s'
  | r => r
  end.

(** [for (const x of l) { body }] *)
Fixpoint forOf {A} (l : list A) (body : A → M unit) : M unit :=
  match l with
  | [] => mret ()
  | x :: rest => body x ;; forOf rest body
  end.

(** A promise observed until it settles: its rejection, if any. *)
Definition settle (p : M unit) : M (option Error) := λ s,
  match p s with
  | Ok _ s' => Ok None s'
  | Throw e s' => Ok (Some e) s'
  | Exit c s' => Exit c s'
  | Diverge => Diverge
  end.

(** [await Promise.all([p1, p2])]: both operations have been started and
    both settle; the await throws when one of them rejected. *)
Definition promiseAll2 (p1 p2 : M unit) : M unit :=
  r1 ← settle p1 ;
  r2 ← settle p2 ;
  match r1, r2 with
  | Some e, _ => throw e
  | None, Some e => throw e
  | None, None => mret ()
  end.

Definition log (m : Message) : M unit := λ s, Ok () (emit (EvLog m) s).

(** [s.slice(0, n)] on a property that may be null. *)
Definition slice_of (what : string) (o : option string) (n : nat) : M string :=
  match o with
  | Some s => mret (Str.slice0 n s)
  | None => throw (TypeError what)
  end.

(** The file an ffmpeg command line writes: its last argument, when the
    command line has an input. *)
Definition ffmpeg_output (args : list string) : option string :=
  if existsb (String.eqb "-i") args then last args else None.

Definition encodingOnly : child_process.Options :=
  {| child_process.encoding := Some "utf8"; child_process.timeout := None |}.

Definition withTimeout : child_process.Options :=
  {| child_process.encoding := None; child_process.timeout := Some MAX_FFMPEG_MS |}.

(** [status === 0] *)
Definition status_is_0 (status : option Z) : bool :=
  match status with
  | Some 0%Z => true
  | _ => false
  end.

(** The object [runCmd] returns. *)
Record CmdResult := {
  ok : bool;
  stdout : option string;
  stderr : option string;
  code : option Z
}.

Section WithEnv.

Variable env : Env.

(** [spawnSync(cmd, args, o)]: a command that exits with status 0 has
    written its output file. *)
Definition spawnSync (cmd : string) (args : list string) (o : child_process.Options)
  : M child_process.Result := λ s,
  match child_process.spawnSync (process env cmd args) o with
  | None => Diverge
  | Some res =>
      let s' :=
        match child_process.status res, ffmpeg_output args with
        | Some 0%Z, Some out => with_disk (<[out := Video args]> (disk s)) s
        | _, _ => s
        end in
      Ok res (emit (EvSpawn cmd args res) s')
  end.

(** [function runCmd(cmd, args)].  The declaration has two parameters: what
    a call passes after them ([surplus]) is bound to nothing, and
    [spawnSync] gets the literal [{ encoding: "utf8" }]. *)
Definition runCmd (cmd : string) (args : list string)
    (surplus : list child_process.Options) : M CmdResult :=
  res ← spawnSync cmd args encodingOnly ;
  mret {| ok := status_is_0 (child_process.status res);
          stdout := child_process.stdout res;
          stderr := child_process.stderr res;
          code := child_process.status res |}.

(** [fs.mkdirSync(dir, { recursive: true })] *)
Definition mkdirSync (dir : string) : M unit := λ s,
  Ok () (with_dirs ({[dir]} ∪ dirs s) s).

(** [fs.copyFileSync(src, dst)] *)
Definition copyFileSync (src dst : string) : M unit := λ s,
  if copy_ok env src dst
  then Ok () (emit (EvCopy src dst true) (with_disk (<[dst := CopyOf src]> (disk s)) s))
  else Throw (CopyError src dst) (emit (EvCopy src dst false) s).

(** [fs.writeFileSync(indexFile, JSON.stringify(indexData, null, 2))] *)
Definition writeIndex : M unit := λ s,
  Ok () (emit (EvWriteFile indexFile (indexData s))
           (with_disk (<[indexFile := ManifestJson (indexData s)]> (disk s)) s)).

(** [job.toFile(out)] *)
Definition toFile (job : sharp.Job) (out : string) : M unit := λ s,
  if sharp_ok env job out
  then Ok () (emit (EvToFile job out true) (with_disk (<[out := Image job]> (disk s)) s))
  else Throw (EncodeError job out) (emit (EvToFile job out false) s).

(** [indexData.length] *)
Definition indexData_length : M nat := λ s, Ok (length (indexData s)) s.

(** [indexData.push(e)] *)
Definition push (e : Entry) : M unit := λ s,
  Ok () (emit (EvPush e) (with_indexData (indexData s ++ [e]) s)).

Definition scaleFilter : string := "fps=30,scale='min(1280,iw)':-2:flags=lanczos".

Definition vp9Args (file optimizedWebM : string) : list string :=
  [ "-y"; "-hide_banner"; "-i"; file;
    "-vf"; scaleFilter;
    "-pix_fmt"; "yuv420p";
    "-c:v"; "libvpx-vp9";
    "-deadline"; "good";
    "-cpu-used"; "4";
    "-row-mt"; "1";
    "-b:v"; "0";
    "-crf"; "35";
    "-auto-alt-ref"; "0";
    "-an";
    optimizedWebM ].

Definition vp8Args (file optimizedWebM : string) : list string :=
  [ "-y"; "-hide_banner"; "-i"; file;
    "-vf"; scaleFilter;
    "-pix_fmt"; "yuv420p";
    "-c:v"; "libvpx";
    "-b:v"; "0";
    "-crf"; "30";
    "-an";
    optimizedWebM ].

Definition thumbArgs (file thumbWebM : string) : list string :=
  [ "-y"; "-hide_banner"; "-i"; file;
    "-vf"; scaleFilter;
    "-vf"; "fps=15,scale=480:480:force_original_aspect_ratio=increase,crop=480:480,setsar=1";
    "-t"; "3";
    "-pix_fmt"; "yuv420p";
    "-c:v"; "libvpx";
    "-deadline"; "good";
    "-cpu-used"; "4";
    "-b:v"; "0";
    "-crf"; "40";
    "-an";
    thumbWebM ].

(** [path.relative(".", p).replace(re, "/")] *)
Definition rel (p : string) : string :=
  Str.replace_backslashes (path.relative_to_cwd p).

(** [files.filter(f => path.extname(f).toLowerCase() === ".gif")] *)
Definition gifs (files : list string) : list string :=
  filter (λ f, Str.toLowerCase (path.extname f) = ".gif") files.

(** [files.filter(f => path.extname(f).toLowerCase() !== ".gif")] *)
Definition statics (files : list string) : list string :=
  filter (λ f, Str.toLowerCase (path.extname f) ≠ ".gif") files.

(** [[...statics, ...gifs]] *)
Definition orderedFiles (files : list string) : list string :=
  statics files ++ gifs files.

(** [sharp(file).resize({ width: 1600, withoutEnlargement: true })] *)
Definition fullResize : sharp.Resize := sharp.ResizeWidth 1600 true.

(** [sharp(file).resize({ width: 360, height: 360, fit: "cover", position: "centre" })] *)
Definition thumbResize : sharp.Resize := sharp.ResizeCover 360 360.

Definition job (file : string) (r : sharp.Resize) (o : sharp.Output) : sharp.Job :=
  {| sharp.input := file; sharp.resize := r; sharp.output := o |}.

Definition gifEntry (file optimizedWebM thumbWebM : string) : Entry :=
  {| original := rel file;
     optimized := WebmOnly (rel optimizedWebM);
     thumbnail := WebmOnly (rel thumbWebM);
     format := "webm" |}.

Definition imageEntry (file optimizedWebP optimizedJPG thumbWebP thumbJPG : string) : Entry :=
  {| original := rel file;
     optimized := WebpJpg (rel optimizedWebP) (rel optimizedJPG);
     thumbnail := WebpJpg (rel thumbWebP) (rel thumbJPG);
     format := "image" |}.

(** The GIF branch of the loop body; every path that ends without a
    further statement is a [continue]. *)
Definition processGif (file base : string) : M unit :=
  log DetectedGif ;;
  let optimizedWebM := path.join outDir (base +:+ ".webm") in
  let thumbWebM := path.join thumbDir (base +:+ ".webm") in
  r ← runCmd "ffmpeg" (vp9Args file optimizedWebM) [withTimeout] ;
  r ← (if negb (ok r)
       then log VP9FailedRetrying ;;
            runCmd "ffmpeg" (vp8Args file optimizedWebM) [withTimeout]
       else mret r) ;
  if negb (ok r) then
    log (FFmpegFailedFor file) ;;
    text ← slice_of "r.stderr" (stderr r) 1000 ;
    log (StderrExcerpt text) ;;
    copyFileSync file (path.join outDir (base +:+ ".gif")) ;;
    log CopiedOriginal
  else
    log (ConvertedFull optimizedWebM) ;;
    rThumb ← runCmd "ffmpeg" (thumbArgs file thumbWebM) [withTimeout] ;
    if negb (ok rThumb) then
      text ← slice_of "rThumb.stderr" (stderr rThumb) 800 ;
      log (ThumbnailFailed text)
    else
      log (CreatedThumbnail thumbWebM) ;;
      push (gifEntry file optimizedWebM thumbWebM).

(** The static branch of the loop body. *)
Definition processStatic (file base : string) : M unit :=
  log StaticImage ;;
  let optimizedWebP := path.join outDir (base +:+ ".webp") in
  let optimizedJPG := path.join outDir (base +:+ ".jpg") in
  let thumbWebP := path.join thumbDir (base +:+ ".webp") in
  let thumbJPG := path.join thumbDir (base +:+ ".jpg") in
  promiseAll2
    (toFile (job file fullResize (sharp.Webp 80)) optimizedWebP)
    (toFile (job file fullResize (sharp.Jpeg 82 true)) optimizedJPG) ;;
  promiseAll2
    (toFile (job file thumbResize (sharp.Webp 60)) thumbWebP)
    (toFile (job file thumbResize (sharp.Jpeg 72 true)) thumbJPG) ;;
  push (imageEntry file optimizedWebP optimizedJPG thumbWebP thumbJPG).

(** The body of the [try] block for one file. *)
Definition processFile (file : string) : M unit :=
  let ext := Str.toLowerCase (path.extname file) in
  let base := path.basename file ext in
  log (Processing file) ;;
  if String.eqb ext ".gif" then processGif file base
  else processStatic file base.

(** One iteration of the loop: the [try] block and its [catch]. *)
Definition iteration (file : string) : M unit :=
  tryCatch (processFile file) (λ err, log (ErrorProcessing file err)).

(** [ffCheck.stdout.split(newline)[0]] *)
Definition first_line (o : option string) : M string :=
  match o with
  | Some s => mret (default EmptyString (head (Str.split (ascii_of_nat 10) s)))
  | None => throw (TypeError "ffCheck.stdout")
  end.

(** The script, top to bottom. *)
Definition main : M unit :=
  mkdirSync outDir ;;
  mkdirSync thumbDir ;;
  ffCheck ← runCmd "ffmpeg" ["-version"] [] ;
  (if negb (ok ffCheck) then log FFmpegNotFound
   else version ← first_line (stdout ffCheck) ; log (FFmpegDetected version)) ;;
  let files := glob env pattern in
  if length files =? 0 then
    log NoImagesFound ;;
    exit 0
  else
    log (FoundFiles (length files)) ;;
    forOf (orderedFiles files) iteration ;;
    writeIndex ;;
    n ← indexData_length ;
    log (Done n).

End WithEnv.

(** The state the script starts from, on a disk [d]. *)
Definition initial (d : gmap string FileContent) : State :=
  {| disk := d; dirs := ∅; indexData := []; trace := [] |}.

(** A run of the script in the world [env] on the disk [d]. *)
Definition run (env : Env) (d : gmap string FileContent) : Res unit :=
  main env (initial d).

(** *** Vocabulary of the properties *)

(** How a run ended, when it did. *)
Definition final_state {A} (r : Res A) : option State :=
  match r with
  | Ok _ s | Throw _ s | Exit _ s => Some s
  | Diverge => None
  end.

(** The loop body's [ext === ".gif"]. *)
Definition isGif (file : string) : bool :=
  String.eqb (Str.toLowerCase (path.extname file)) ".gif".

(** The loop body's [base]. *)
Definition base (file : string) : string :=
  path.basename file (Str.toLowerCase (path.extname file)).

(** The name of a file without its extension, as [path] computes the two. *)
Definition stem (file : string) : string :=
  path.basename file (path.extname file).

Definition optimizedWebM (file : string) : string := path.join outDir (base file +:+ ".webm").
Definition thumbWebM (file : string) : string := path.join thumbDir (base file +:+ ".webm").
Definition optimizedWebP (file : string) : string := path.join outDir (base file +:+ ".webp").
Definition optimizedJPG (file : string) : string := path.join outDir (base file +:+ ".jpg").
Definition thumbWebP (file : string) : string := path.join thumbDir (base file +:+ ".webp").
Definition thumbJPG (file : string) : string := path.join thumbDir (base file +:+ ".jpg").
Definition fallbackGif (file : string) : string := path.join outDir (base file +:+ ".gif").

(** The variant files the pipeline derives from a source file. *)
Definition outputsOf (file : string) : list string :=
  if isGif file then [optimizedWebM file; thumbWebM file]
  else [optimizedWebP file; optimizedJPG file; thumbWebP file; thumbJPG file].

(** The entry the pipeline pushes for a source file, when it pushes one. *)
Definition entryOf (file : string) : Entry :=
  if isGif file then gifEntry file (optimizedWebM file) (thumbWebM file)
  else imageEntry file (optimizedWebP file) (optimizedJPG file) (thumbWebP file) (thumbJPG file).

(** The paths an entry references. *)
Definition paths_of (v : Variants) : list string :=
  match v with
  | WebmOnly webm => [webm]
  | WebpJpg webp jpg => [webp; jpg]
  end.
Definition references (e : Entry) : list string :=
  paths_of (optimized e) ++ paths_of (thumbnail e).

(** The encoder, run on [args], exits by itself with status 0. *)
Definition cmdOk (env : Env) (args : list string) : bool :=
  match process env "ffmpeg" args with
  | child_process.Exits _ 0%Z _ _ => true
  | _ => false
  end.

(** The encoder could be started on [args], so that its [stderr] is a
    string. *)
Definition started (env : Env) (args : list string) : bool :=
  match process env "ffmpeg" args with
  | child_process.NotFound => false
  | _ => true
  end.

Definition vp9Ok (env : Env) (file : string) : bool :=
  cmdOk env (vp9Args file (optimizedWebM file)).
Definition vp8Ok (env : Env) (file : string) : bool :=
  cmdOk env (vp8Args file (optimizedWebM file)).
Definition thumbOk (env : Env) (file : string) : bool :=
  cmdOk env (thumbArgs file (thumbWebM file)).

(** Every encode of the file reports success: the full WebM (by either
    profile) and the thumbnail WebM of a GIF, the four Sharp encodes of a
    static image. *)
Definition encodes (env : Env) (file : string) : bool :=
  if isGif file then (vp9Ok env file || vp8Ok env file) && thumbOk env file
  else sharp_ok env (job file fullResize (sharp.Webp 80)) (optimizedWebP file)
       && sharp_ok env (job file fullResize (sharp.Jpeg 82 true)) (optimizedJPG file)
       && sharp_ok env (job file thumbResize (sharp.Webp 60)) (thumbWebP file)
       && sharp_ok env (job file thumbResize (sharp.Jpeg 72 true)) (thumbJPG file).

(** No command of this world runs for ever. *)
Definition responsive (env : Env) : Prop :=
  ∀ cmd args, process env cmd args ≠ child_process.Hangs.

(** The input file of an ffmpeg command line: what follows ["-i"]. *)
Fixpoint input_of (args : list string) : option string :=
  match args with
  | [] => None
  | a :: rest =>
      if String.eqb a "-i" then head rest else input_of rest
  end.

(** The event records that the variant file [out] was written from the
    source [file], and that the write reported success. *)
Definition wrote (file out : string) (ev : Event) : Prop :=
  match ev with
  | EvSpawn cmd args res =>
      child_process.status res = Some 0%Z ∧ last args = Some out ∧ input_of args = Some file
  | EvToFile j o succeeded =>
      succeeded = true ∧ o = out ∧ sharp.input j = file
  | _ => False
  end.

(** The source file a derived file was made from. *)
Definition source_of (c : FileContent) : option string :=
  match c with
  | Video args => input_of args
  | Image j => Some (sharp.input j)
  | CopyOf src => Some src
  | Source | ManifestJson _ => None
  end.

(** The file [out] of the disk was made from the source [file]. *)
Definition holds_from (file out : string) (d : gmap string FileContent) : Prop :=
  ∃ c, d !! out = Some c ∧ source_of c = Some file.

(** The projections of a trace. *)
Definition pushes (t : list Event) : list Entry :=
  omap (λ ev, match ev with EvPush e => Some e | _ => None end) t.
Definition processed (t : list Event) : list string :=
  omap (λ ev, match ev with EvLog (Processing f) => Some f | _ => None end) t.
Definition spawned (t : list Event) : list (list string) :=
  omap (λ ev, match ev with EvSpawn _ args _ => Some args | _ => None end) t.
Definition copies (t : list Event) : list (string * string) :=
  omap (λ ev, match ev with EvCopy src dst _ => Some (src, dst) | _ => None end) t.
Definition manifest_writes (t : list Event) : list string :=
  omap (λ ev, match ev with EvWriteFile f _ => Some f | _ => None end) t.
Definition encodes_started (t : list Event) : list (sharp.Job * string) :=
  omap (λ ev, match ev with EvToFile j out _ => Some (j, out) | _ => None end) t.

(** What an event does to the files of the disk. *)
Definition effect (ev : Event) (d : gmap string FileContent) : gmap string FileContent :=
  match ev with
  | EvSpawn _ args res =>
      match child_process.status res, ffmpeg_output args with
      | Some 0%Z, Some out => <[out := Video args]> d
      | _, _ => d
      end
  | EvToFile j out true => <[out := Image j]> d
  | EvCopy src dst true => <[dst := CopyOf src]> d
  | EvWriteFile file entries => <[file := ManifestJson entries]> d
  | _ => d
  end.

Definition replay (t : list Event) (d : gmap string FileContent) : gmap string FileContent :=
  foldl (λ d ev, effect ev d) d t.

(** From [s] to [s'] exactly the events [t] happened: they are what the
    trace has grown by, and the disk and [indexData] have changed as they
    say. *)
Definition advances (s s' : State) (t : list Event) : Prop :=
  trace s' = trace s ++ t
  ∧ indexData s' = indexData s ++ pushes t
  ∧ disk s' = replay t (disk s)
  ∧ dirs s' = dirs s.

(** The event belongs to the processing of the source [file]. *)
Definition concerns (file : string) (ev : Event) : Prop :=
  match ev with
  | EvSpawn _ args _ => input_of args = Some file
  | EvToFile j _ _ => sharp.input j = file
  | EvCopy src _ _ => src = file
  | EvPush e => original e = rel file
  | EvWriteFile _ _ => False
  | EvLog _ => True
  end.

(** The event reports that the processing of [file] failed. *)
Definition reports_failure (file : string) (ev : Event) : Prop :=
  match ev with
  | EvLog (ErrorProcessing f _) | EvLog (FFmpegFailedFor f) => f = file
  | EvLog (ThumbnailFailed _) => True
  | _ => False
  end.

(** The events leave the files, [indexData] and the list of processed
    sources as they are. *)
Definition quiet (t : list Event) : Prop :=
  pushes t = [] ∧ processed t = [] ∧ manifest_writes t = []
  ∧ encodes_started t = [] ∧ copies t = [] ∧ ∀ d, replay t d = d.

(** The encoder invocations of a GIF: the first profile, the second when
    the first failed, the thumbnail when one of them succeeded. *)
Definition gifInvocations (env : Env) (file : string) : list (list string) :=
  vp9Args file (optimizedWebM file)
  :: (if vp9Ok env file then [] else [vp8Args file (optimizedWebM file)])
  ++ (if vp9Ok env file || vp8Ok env file then [thumbArgs file (thumbWebM file)] else []).

(** The Sharp encodes of a static image: the full tier, then the
    thumbnail tier when the full tier went through. *)
Definition staticEncodes (env : Env) (file : string) : list (sharp.Job * string) :=
  [ (job file fullResize (sharp.Webp 80), optimizedWebP file);
    (job file fullResize (sharp.Jpeg 82 true), optimizedJPG file) ]
  ++ (if sharp_ok env (job file fullResize (sharp.Webp 80)) (optimizedWebP file)
         && sharp_ok env (job file fullResize (sharp.Jpeg 82 true)) (optimizedJPG file)
      then [ (job file thumbResize (sharp.Webp 60), thumbWebP file);
             (job file thumbResize (sharp.Jpeg 72 true), thumbJPG file) ]
      else []).

(** What the events of one iteration of the loop, on [file], look like. *)
Record ItemTrace (env : Env) (file : string) (t : list Event) : Prop := {
  it_processed : processed t = [file];
  it_manifest : manifest_writes t = [];
  it_concerns : Forall (concerns file) t;
  it_pushes : pushes t = if encodes env file then [entryOf file] else [];
  it_after_writes :
    encodes env file = true →
    ∃ before, t = before ++ [EvPush (entryOf file)]
      ∧ Forall (λ out, Exists (wrote file out) before) (outputsOf file);
  it_failure : encodes env file = false → Exists (reports_failure file) t;
  it_spawned : spawned t = if isGif file then gifInvocations env file else [];
  it_encodes : encodes_started t = if isGif file then [] else staticEncodes env file;
  it_copies :
    copies t =
    if isGif file && negb (vp9Ok env file || vp8Ok env file)
       && started env (vp8Args file (optimizedWebM file))
    then [(file, fallbackGif file)] else []
}.


End Pipeline.

(** ** Worlds to run the script in *)

Module Worlds.

Import Pipeline.

Definition exits (status : Z) : child_process.Behaviour :=
  child_process.Exits 1500 status "ffmpeg version 6.1" "Conversion failed!".

(** Does [needle] occur in the command line? *)
Definition mentions (needle : string) (args : list string) : bool :=
  existsb (String.eqb needle) args.

(** No source files at all. *)
Definition empty_root : Env :=
  {| glob := λ _, [];
     process := λ _ _, exits 0;
     sharp_ok := λ _ _, true;
     copy_ok := λ _ _, true |}.

(** One GIF, and no ffmpeg on the PATH. *)
Definition no_ffmpeg : Env :=
  {| glob := λ _, ["images/party.gif"];
     process := λ _ _, child_process.NotFound;
     sharp_ok := λ _ _, true;
     copy_ok := λ _ _, true |}.

(** One GIF on which the VP9 encode never finishes. *)
Definition stuck_encoder : Env :=
  {| glob := λ _, ["images/party.gif"];
     process := λ _ args,
       if mentions "libvpx-vp9" args then child_process.Hangs else exits 0;
     sharp_ok := λ _ _, true;
     copy_ok := λ _ _, true |}.

(** One GIF whose encodes each take two minutes and then succeed. *)
Definition slow_encoder : Env :=
  {| glob := λ _, ["images/party.gif"];
     process := λ _ args,
       if mentions "-i" args then child_process.Exits 120000 0 EmptyString EmptyString
       else exits 0;
     sharp_ok := λ _ _, true;
     copy_ok := λ _ _, true |}.

(** A batch in discovery order: a GIF, two static images, and a GIF that no
    profile can encode. *)
Definition mixed_batch : Env :=
  {| glob := λ _, ["images/b/clip.gif"; "images/2022-05-01_cat.png";
                   "images/broken.gif"; "images/photo.jpeg"];
     process := λ _ args, if mentions "images/broken.gif" args then exits 1 else exits 0;
     sharp_ok := λ _ _, true;
     copy_ok := λ _ _, true |}.

(** Two static images of the same name in different directories. *)
Definition twins : Env :=
  {| glob := λ _, ["images/a/cat.png"; "images/b/cat.jpg"];
     process := λ _ _, exits 0;
     sharp_ok := λ _ _, true;
     copy_ok := λ _ _, true |}.

(** One static image whose file name holds a backslash, which is an
    ordinary character of a POSIX file name. *)
Definition backslash_name : Env :=
  {| glob := λ _, ["images/a" +:+ String Str.backslash "b.png"];
     process := λ _ _, exits 0;
     sharp_ok := λ _ _, true;
     copy_ok := λ _ _, true |}.

End Worlds.

(** * Properties *)

Import Pipeline.

Example extname_upper : path.extname "images/a/photo.PNG" = ".PNG".
Proof. reflexivity. Qed.

Example extname_hidden : path.extname "images/.hidden" = EmptyString.
Proof. reflexivity. Qed.

Example basename_strips : path.basename "images/a/photo.png" ".png" = "photo".
Proof. reflexivity. Qed.

Example entry_of_cat :
  entryOf "images/2022-05-01_cat.png"
  = {| original := "images/2022-05-01_cat.png";
       optimized := WebpJpg "images-optimized/2022-05-01_cat.webp"
                            "images-optimized/2022-05-01_cat.jpg";
       thumbnail := WebpJpg "images-thumbs/2022-05-01_cat.webp"
                            "images-thumbs/2022-05-01_cat.jpg";
       format := "image" |}.
Proof. reflexivity. Qed.

(** ** String lemmas *)

Lemma lower_char_dot c : Str.lower_char c = "."%char ↔ c = "."%char.
Proof. destruct c as [[] [] [] [] [] [] [] []]; vm_compute; split; congruence. Qed.

Lemma lower_char_idem c : Str.lower_char (Str.lower_char c) = Str.lower_char c.
Proof. destruct c as [[] [] [] [] [] [] [] []]; reflexivity. Qed.

Lemma toLowerCase_app s t :
  Str.toLowerCase (s +:+ t) = Str.toLowerCase s +:+ Str.toLowerCase t.
Proof. induction s as [|c s IH]; simpl; [done | by rewrite IH]. Qed.

Lemma toLowerCase_idem s : Str.toLowerCase (Str.toLowerCase s) = Str.toLowerCase s.
Proof. induction s as [|c s IH]; simpl; [done | by rewrite lower_char_idem, IH]. Qed.

Lemma eqb_lower_slash c : Ascii.eqb (Str.lower_char c) "/" = Ascii.eqb c "/".
Proof. destruct c as [[] [] [] [] [] [] [] []]; reflexivity. Qed.

Lemma eqb_lower_dot c : Ascii.eqb (Str.lower_char c) "." = Ascii.eqb c ".".
Proof. destruct c as [[] [] [] [] [] [] [] []]; reflexivity. Qed.

Lemma split_lower s :
  Str.split "/" (Str.toLowerCase s) = Str.toLowerCase <$> Str.split "/" s.
Proof.
  induction s as [|c s IH]; simpl; [done|].
  rewrite eqb_lower_slash, IH.
  destruct (Ascii.eqb c "/"); [done|].
  by destruct (Str.split "/" s).
Qed.

Lemma last_segment_lower p :
  path.last_segment (Str.toLowerCase p) = Str.toLowerCase (path.last_segment p).
Proof.
  unfold path.last_segment. rewrite split_lower, fmap_last.
  by destruct (last (Str.split "/" p)).
Qed.

Lemma from_last_dot_lower s :
  Str.from_last_dot (Str.toLowerCase s) = Str.toLowerCase <$> Str.from_last_dot s.
Proof.
  induction s as [|c s IH]; simpl; [done|].
  rewrite IH, eqb_lower_dot.
  destruct (Str.from_last_dot s); simpl; [done|].
  by destruct (Ascii.eqb c ".").
Qed.

Lemma toLowerCase_length s : String.length (Str.toLowerCase s) = String.length s.
Proof. induction s; simpl; congruence. Qed.


Lemma length_append s t : String.length (s +:+ t) = String.length s + String.length t.
Proof. induction s as [|c s IH]; simpl; [done | by rewrite IH]. Qed.

Lemma from_last_dot_suffix s e :
  Str.from_last_dot s = Some e → ∃ pre, s = pre +:+ e.
Proof.
  revert e. induction s as [|c s IH]; intros e; simpl; [done|].
  destruct (Str.from_last_dot s) as [e'|].
  - intros [= <-]. destruct (IH e' eq_refl) as [pre ->]. by exists (String c pre).
  - destruct (Ascii.eqb c "."); [|done]. intros [= <-]. by exists EmptyString.
Qed.

Lemma suffix_same_length pre e : String.length (pre +:+ e) = String.length e → pre = EmptyString.
Proof. rewrite length_append. destruct pre; simpl; [done | lia]. Qed.

Lemma toLowerCase_eq_dots c : Str.toLowerCase c = ".." ↔ c = "..".
Proof.
  split; [|by intros ->].
  destruct c as [|a [|b [|? ?]]]; simpl; try done.
  intros [= Ha Hb]. apply (proj1 (lower_char_dot _)) in Ha. apply (proj1 (lower_char_dot _)) in Hb.
  by subst.
Qed.

Lemma extname_lower p :
  path.extname (Str.toLowerCase p) = Str.toLowerCase (path.extname p).
Proof.
  unfold path.extname. rewrite last_segment_lower.
  generalize (path.last_segment p); intros c.
  destruct (String.eqb_spec c "..") as [->|Hne]; [reflexivity|].
  destruct (String.eqb_spec (Str.toLowerCase c) "..") as [He|_].
  { by apply (proj1 (toLowerCase_eq_dots _)) in He. }
  rewrite from_last_dot_lower.
  destruct (Str.from_last_dot c) as [e|] eqn:He; simpl; [|done].
  destruct (from_last_dot_suffix _ _ He) as [pre Hc].
  destruct (String.eqb_spec e c) as [->|Hec].
  { by rewrite String.eqb_refl. }
  destruct (String.eqb_spec (Str.toLowerCase e) (Str.toLowerCase c)) as [Hl|_]; [|done].
  exfalso. apply Hec. apply (f_equal String.length) in Hl.
  rewrite !toLowerCase_length in Hl. rewrite Hc in Hl |- *.
  symmetry in Hl. apply suffix_same_length in Hl. by subst.
Qed.


Lemma isGif_lower f : isGif (Str.toLowerCase f) = isGif f.
Proof. unfold isGif. by rewrite extname_lower, toLowerCase_idem. Qed.

Lemma isGif_true f : isGif f = true ↔ Str.toLowerCase (path.extname f) = ".gif".
Proof. apply String.eqb_eq. Qed.

Lemma isGif_false f : isGif f = false ↔ Str.toLowerCase (path.extname f) ≠ ".gif".
Proof. apply String.eqb_neq. Qed.

(** C7.  Classification looks at the extension only, ignoring its case: a
    file is among [gifs] exactly when its extension lower-cases to [.gif],
    among [statics] otherwise, and the loop body takes the GIF branch on
    the same test; paths that differ only in the case of their extension
    (indeed in any letter's case) are classified alike. *)
Theorem classification_by_extension :
  (∀ files f, f ∈ gifs files ↔ f ∈ files ∧ Str.toLowerCase (path.extname f) = ".gif")
  ∧ (∀ files f, f ∈ statics files ↔ f ∈ files ∧ Str.toLowerCase (path.extname f) ≠ ".gif")
  ∧ (∀ env f, processFile env f =
       (log (Processing f) ;;
        if isGif f then processGif env f (base f) else processStatic env f (base f)))
  ∧ (∀ f, isGif f = true ↔ Str.toLowerCase (path.extname f) = ".gif")
  ∧ (∀ f, isGif (Str.toLowerCase f) = isGif f)
  ∧ (∀ name e1 e2, Str.toLowerCase e1 = Str.toLowerCase e2 →
       isGif (name +:+ e1) = isGif (name +:+ e2))
  ∧ isGif "images/photo.PNG" = false ∧ isGif "images/photo.png" = false
  ∧ isGif "images/clip.gif" = true ∧ isGif "images/clip.GIF" = true
  ∧ isGif "images/clip.Gif" = true.
Proof.
  split_and!; try reflexivity.
  - intros files f. unfold gifs. by rewrite list_elem_of_filter, (comm and).
  - intros files f. unfold statics. by rewrite list_elem_of_filter, (comm and).
  - apply isGif_true.
  - apply isGif_lower.
  - intros name e1 e2 He.
    rewrite <- (isGif_lower (name +:+ e1)), <- (isGif_lower (name +:+ e2)).
    by rewrite !toLowerCase_app, He.
Qed.

(** ** The year filter *)

Lemma is_year_sep_spec c :
  Gallery.is_year_sep c = true ↔ c = "-"%char ∨ c = "_"%char ∨ c = "."%char.
Proof.
  unfold Gallery.is_year_sep. rewrite !orb_true_iff, !Ascii.eqb_eq. tauto.
Qed.

Lemma match_year_Some name y :
  Gallery.match_year name = Some y ↔
  String.length y = 4 ∧ Gallery.all_digits y = true ∧
  ∃ sep rest, Gallery.is_year_sep sep = true ∧ name = y +:+ String sep rest.
Proof.
  split.
  - destruct name as [|a [|b [|c [|d [|sep rest]]]]]; simpl; try done.
    destruct (Gallery.is_digit a) eqn:Ha, (Gallery.is_digit b) eqn:Hb,
      (Gallery.is_digit c) eqn:Hc, (Gallery.is_digit d) eqn:Hd,
      (Gallery.is_year_sep sep) eqn:Hs; simpl; try done.
    intros [= <-]. simpl. rewrite Ha, Hb, Hc, Hd. eauto 10.
  - intros (Hlen & Hdig & sep & rest & Hsep & ->).
    destruct y as [|a [|b [|c [|d [|? ?]]]]]; simpl in Hlen; try done.
    simpl in Hdig |- *. rewrite Hsep.
    destruct (Gallery.is_digit a), (Gallery.is_digit b),
      (Gallery.is_digit c), (Gallery.is_digit d); simpl in *; done.
Qed.

Lemma yearFromItem_match item :
  Gallery.yearFromItem item =
  Gallery.match_year (Gallery.basename (default EmptyString (item ≫= Gallery.original))).
Proof.
  unfold Gallery.yearFromItem.
  destruct (Gallery.match_year _) as [y|] eqn:Hy; [|done].
  apply match_year_Some in Hy as (Hlen & _).
  by destruct y.
Qed.

(** C8.  The year of an item is read off the basename of its [original]
    path alone: it is the four leading digits when one of [-], [_], [.]
    follows them directly, and there is none otherwise; an item without a
    year is shown under the "ALL" selection only. *)
Theorem year_from_filename :
  (∀ item y,
     Gallery.yearFromItem item = Some y ↔
     String.length y = 4 ∧ Gallery.all_digits y = true ∧
     ∃ sep rest, (sep = "-"%char ∨ sep = "_"%char ∨ sep = "."%char) ∧
       Gallery.basename (default EmptyString (item ≫= Gallery.original))
       = y +:+ String sep rest)
  ∧ (∀ sel items it,
       it ∈ Gallery.applyFilters sel items ↔
       it ∈ items ∧ (sel = "ALL" ∨ Gallery.yearFromItem (Some it) = Some sel))
  ∧ Gallery.yearFromItem (Some {| Gallery.original := Some "2023-04-01_beach.jpg" |})
    = Some "2023"
  ∧ Gallery.yearFromItem (Some {| Gallery.original := Some "images/trips/2023-04-01_beach.jpg" |})
    = Some "2023"
  ∧ Gallery.yearFromItem (Some {| Gallery.original := Some "images/2019_snow.png" |})
    = Some "2019"
  ∧ Gallery.yearFromItem (Some {| Gallery.original := Some "images/2021.gif" |})
    = Some "2021"
  ∧ Gallery.yearFromItem (Some {| Gallery.original := Some "beach.jpg" |}) = None
  ∧ Gallery.yearFromItem (Some {| Gallery.original := Some "images/2023/beach.jpg" |}) = None
  ∧ Gallery.yearFromItem (Some {| Gallery.original := Some "images/20234-04.jpg" |}) = None
  ∧ Gallery.yearFromItem (Some {| Gallery.original := Some "images/2023 beach.jpg" |}) = None
  ∧ Gallery.yearFromItem (Some {| Gallery.original := None |}) = None
  ∧ Gallery.yearFromItem None = None.
Proof.
  split_and!; try reflexivity.
  - intros item y. rewrite yearFromItem_match, match_year_Some.
    setoid_rewrite is_year_sep_spec. done.
  - intros sel items it. unfold Gallery.applyFilters.
    destruct (String.eqb_spec sel "ALL") as [->|Hne]; simpl.
    + split; [by auto | by intros [? _]].
    + rewrite list_elem_of_filter. split.
      * intros [? ?]. by auto.
      * intros [? [?|?]]; done.
Qed.

(** ** The events of a run *)

Lemma advances_refl s : advances s s [].
Proof. unfold advances. simpl. by rewrite !app_nil_r. Qed.

Lemma pushes_app t1 t2 : pushes (t1 ++ t2) = pushes t1 ++ pushes t2.
Proof. apply omap_app. Qed.

Lemma replay_app t1 t2 d : replay (t1 ++ t2) d = replay t2 (replay t1 d).
Proof. apply foldl_app. Qed.

Lemma advances_trans s1 s2 s3 t1 t2 :
  advances s1 s2 t1 → advances s2 s3 t2 → advances s1 s3 (t1 ++ t2).
Proof.
  intros (Ht1 & Hi1 & Hd1 & Hr1) (Ht2 & Hi2 & Hd2 & Hr2). unfold advances.
  rewrite Ht2, Ht1, Hi2, Hi1, Hd2, Hd1, Hr2, Hr1, pushes_app, replay_app.
  by rewrite !app_assoc.
Qed.

Lemma advances_step s s' t ev s'' :
  advances s s' t →
  trace s'' = trace s' ++ [ev] →
  indexData s'' = indexData s' ++ pushes [ev] →
  disk s'' = effect ev (disk s') →
  dirs s'' = dirs s' →
  advances s s'' (t ++ [ev]).
Proof.
  intros H ????. eapply advances_trans; [exact H|]. by unfold advances.
Qed.

Ltac adv :=
  lazymatch goal with
  | |- advances ?s ?s _ => apply advances_refl
  | |- advances ?s (emit ?ev (with_disk ?d ?s')) _ =>
      eapply (advances_step s s' _ ev); [adv | try (rewrite ?app_nil_r; reflexivity) ..]
  | |- advances ?s (emit ?ev (with_indexData ?l ?s')) _ =>
      eapply (advances_step s s' _ ev); [adv | try (rewrite ?app_nil_r; reflexivity) ..]
  | |- advances ?s (emit ?ev ?s') _ =>
      eapply (advances_step s s' _ ev); [adv | try (rewrite ?app_nil_r; reflexivity) ..]
  end.

Ltac wrote_here :=
  first [ apply Exists_cons_hd; cbn; by split_and!
        | apply Exists_cons_tl; wrote_here ].

Ltac unfold_outcomes :=
  unfold encodes, gifInvocations, staticEncodes, vp9Ok, vp8Ok, thumbOk, cmdOk, started,
    outputsOf, entryOf, optimizedWebM, thumbWebM, optimizedWebP, optimizedJPG,
    thumbWebP, thumbJPG, fallbackGif, base in *.

Ltac failure_here :=
  first [ apply Exists_cons_hd; cbn; done
        | apply Exists_cons_tl; failure_here ].

Ltac use_equations :=
  repeat match goal with H : _ = _ |- _ => rewrite H; clear H end.

Ltac item_leaf :=
  lazymatch goal with
  | |- _ ∧ ¬ responsive _ =>
      split; [first [assumption | reflexivity]
             | let H := fresh in intros H; eapply H; eassumption]
  | |- ∃ t, advances _ _ t ∧ ItemTrace _ _ t =>
      eexists; split; [adv|];
      split; unfold_outcomes; use_equations; cbn;
      [ reflexivity | reflexivity | repeat constructor | reflexivity
      | lazymatch goal with
        | |- false = true → _ => intros [=]
        | |- _ → ∃ before, ?t = _ ∧ _ =>
            intros _; exists (removelast t);
            split; [reflexivity | cbn; repeat constructor; wrote_here]
        end
      | lazymatch goal with
        | |- true = false → _ => intros [=]
        | |- _ => intros _; failure_here
        end
      | reflexivity | reflexivity | reflexivity ]
  end.

Ltac item_case :=
  match goal with
  | |- context [process ?e ?c (vp9Args ?f ?o)] =>
      destruct (process e c (vp9Args f o)) as [|? [|?|?] ? ?|] eqn:?; cbn
  | |- context [process ?e ?c (vp8Args ?f ?o)] =>
      destruct (process e c (vp8Args f o)) as [|? [|?|?] ? ?|] eqn:?; cbn
  | |- context [process ?e ?c ?a] =>
      destruct (process e c a) as [|? [|?|?] ? ?|] eqn:?; cbn
  | |- context [copy_ok ?e ?a ?b] => destruct (copy_ok e a b) eqn:?; cbn
  | |- context [sharp_ok ?e ?a ?b] => destruct (sharp_ok e a b) eqn:?; cbn
  end.

#[local] Arguments Str.slice0 : simpl never.

Lemma processGif_trace (env : Env) (f : string) (s : State) :
  isGif f = true →
  match iteration env f s with
  | Ok _ s' => ∃ t, advances s s' t ∧ ItemTrace env f t
  | Diverge => isGif f = true ∧ ¬ responsive env
  | _ => False
  end.
Proof.
  intros Hg.
  unfold iteration, tryCatch, processFile.
  fold (isGif f). rewrite Hg.
  unfold processGif, runCmd, spawnSync, copyFileSync.
  unfold mbind, M_bind, mret, M_ret.
  cbn.
  repeat first [ item_leaf | item_case ].
Qed.

Lemma processStatic_trace (env : Env) (f : string) (s : State) :
  isGif f = false →
  match iteration env f s with
  | Ok _ s' => ∃ t, advances s s' t ∧ ItemTrace env f t
  | Diverge => isGif f = true ∧ ¬ responsive env
  | _ => False
  end.
Proof.
  intros Hg.
  unfold iteration, tryCatch, processFile.
  fold (isGif f). rewrite Hg.
  unfold processStatic, promiseAll2, settle, toFile.
  unfold mbind, M_bind, mret, M_ret.
  cbn.
  repeat first [ item_leaf | item_case ].
Qed.

Lemma iteration_trace env f s :
  match iteration env f s with
  | Ok _ s' => ∃ t, advances s s' t ∧ ItemTrace env f t
  | Diverge => isGif f = true ∧ ¬ responsive env
  | _ => False
  end.
Proof.
  destruct (decide (isGif f = true)) as [Hg|Hg].
  - by apply processGif_trace.
  - apply processStatic_trace. by destruct (isGif f).
Qed.

Lemma forOf_trace env l s :
  match forOf l (iteration env) s with
  | Ok _ s' => ∃ ts, advances s s' (concat ts) ∧ Forall2 (ItemTrace env) l ts
  | Diverge => ¬ responsive env
  | _ => False
  end.
Proof.
  revert s. induction l as [|f l IH]; intros s; simpl.
  - exists []. split; [apply advances_refl | constructor].
  - unfold mbind, M_bind.
    pose proof (iteration_trace env f s) as Hf.
    destruct (iteration env f s) as [[] s1| | |]; try done; [|by destruct Hf].
    destruct Hf as (t & Hadv & Ht).
    specialize (IH s1).
    destruct (forOf l (iteration env) s1) as [[] s2| | |]; try done.
    destruct IH as (ts & Hadv' & Hts).
    exists (t :: ts). split; [|by constructor].
    simpl. by eapply advances_trans.
Qed.

Ltac quiet_events :=
  unfold quiet; split_and!; [reflexivity .. | intros ?; reflexivity].

#[local] Arguments orderedFiles : simpl never.

Lemma run_trace env d :
  match run env d with
  | Ok _ s =>
      glob env pattern ≠ []
      ∧ ∃ pre ts,
          quiet pre
          ∧ Forall2 (ItemTrace env) (orderedFiles (glob env pattern)) ts
          ∧ trace s = pre ++ concat ts
                      ++ [EvWriteFile indexFile (indexData s); EvLog (Done (length (indexData s)))]
          ∧ indexData s = pushes (concat ts)
          ∧ disk s = <[indexFile := ManifestJson (indexData s)]> (replay (concat ts) d)
  | Exit c s =>
      c = 0%Z ∧ glob env pattern = [] ∧ disk s = d ∧ indexData s = []
      ∧ quiet (trace s)
  | Throw _ _ => False
  | Diverge => ¬ responsive env
  end.
Proof.
  unfold run, main, runCmd, spawnSync, mkdirSync, first_line.
  unfold mbind, M_bind, mret, M_ret. cbn beta iota zeta.
  destruct (process env "ffmpeg" ["-version"]) as [|ms [|?|?] out err|] eqn:Ev.
  all: unfold child_process.spawnSync, encodingOnly, child_process.timeout.
  all: cbn -[union singleton empty insert pattern].
  5: { intros Hr. by eapply Hr. }
  all: destruct (glob env pattern) as [|f0 files] eqn:Hfiles;
    cbn -[union singleton empty insert pattern].
  1,3,5,7: split_and!; try reflexivity; quiet_events.
  all: match goal with
       | |- context [forOf ?l ?b ?s0] =>
           pose proof (forOf_trace env l s0) as Hloop;
           destruct (forOf l b s0) as [[] s1| | |]; [|by destruct Hloop|by destruct Hloop|exact Hloop]
       end.
  all: destruct Hloop as (ts & (Htr & Hidx & Hdisk & Hdirs) & Hts).
  all: cbn -[union singleton empty insert pattern] in *.
  all: split; [discriminate|].
  all: eexists [_; _; _], ts; split_and!;
    [ | exact Hts | rewrite Htr, <- !app_assoc; reflexivity
      | exact Hidx | rewrite Hdisk; reflexivity ].
  all: quiet_events.
Qed.

(** ** What the traces of the items add up to *)

Section Items.

Context (env : Env).

Lemma items_pushes l ts :
  Forall2 (ItemTrace env) l ts →
  pushes (concat ts) = entryOf <$> filter (λ f, encodes env f = true) l.
Proof.
  induction 1 as [|f t l ts Ht _ IH]; [done|].
  simpl. rewrite pushes_app, IH, (it_pushes _ _ _ Ht), filter_cons.
  destruct (encodes env f); by case_decide.
Qed.

Lemma processed_app t1 t2 : processed (t1 ++ t2) = processed t1 ++ processed t2.
Proof. apply omap_app. Qed.

Lemma manifest_writes_app t1 t2 :
  manifest_writes (t1 ++ t2) = manifest_writes t1 ++ manifest_writes t2.
Proof. apply omap_app. Qed.

Lemma items_processed l ts :
  Forall2 (ItemTrace env) l ts → processed (concat ts) = l.
Proof.
  induction 1 as [|f t l ts Ht _ IH]; [done|].
  simpl. by rewrite processed_app, IH, (it_processed _ _ _ Ht).
Qed.

Lemma items_manifest_writes l ts :
  Forall2 (ItemTrace env) l ts → manifest_writes (concat ts) = [].
Proof.
  induction 1 as [|f t l ts Ht _ IH]; [done|].
  simpl. by rewrite manifest_writes_app, IH, (it_manifest _ _ _ Ht).
Qed.

Lemma items_split l ts f :
  Forall2 (ItemTrace env) l ts → f ∈ l →
  ∃ t c1 c2, ItemTrace env f t ∧ concat ts = c1 ++ t ++ c2.
Proof.
  induction 1 as [|f' t l ts Ht _ IH]; intros Hin.
  - by apply elem_of_nil in Hin.
  - apply elem_of_cons in Hin as [->|Hin].
    + by exists t, [], (concat ts).
    + destruct (IH Hin) as (t' & c1 & c2 & Ht' & Hc).
      exists t', (t ++ c1), c2. split; [done|].
      simpl. by rewrite Hc, <- app_assoc.
Qed.

End Items.

(** ** Replaying a trace on the disk *)

Lemma effect_mono ev d p : is_Some (d !! p) → is_Some (effect ev d !! p).
Proof.
  intros Hp. destruct ev as [cmd args res|j out [] |src dst []|e|file entries|m]; simpl; try done.
  - destruct (child_process.status res) as [[| |]|]; try done.
    destruct (ffmpeg_output args); [|done].
    apply lookup_insert_is_Some'. by right.
  - apply lookup_insert_is_Some'. by right.
  - apply lookup_insert_is_Some'. by right.
  - apply lookup_insert_is_Some'. by right.
Qed.

Lemma replay_mono t d p : is_Some (d !! p) → is_Some (replay t d !! p).
Proof.
  revert d. induction t as [|ev t IH]; intros d Hp; [done|].
  simpl. apply IH. by apply effect_mono.
Qed.

Lemma input_of_mentions args f :
  input_of args = Some f → existsb (String.eqb "-i") args = true.
Proof.
  induction args as [|a args IH]; [done|].
  cbn [input_of existsb].
  rewrite (String.eqb_sym "-i" a).
  destruct (String.eqb a "-i"); [done | exact IH].
Qed.

Lemma wrote_effect f out ev d : wrote f out ev → holds_from f out (effect ev d).
Proof.
  destruct ev as [cmd args res|j o ok|src dst ok|e|file entries|m]; simpl; try done.
  - intros (Hst & Hlast & Hin). rewrite Hst. unfold ffmpeg_output.
    rewrite (input_of_mentions _ _ Hin), Hlast.
    exists (Video args). by rewrite lookup_insert_eq.
  - intros (-> & -> & <-). exists (Image j). by rewrite lookup_insert_eq.
Qed.

Lemma concerns_effect f out ev d :
  concerns f ev → holds_from f out d → holds_from f out (effect ev d).
Proof.
  intros Hc (c & Hd & Hsrc).
  destruct ev as [cmd args res|j o ok|src dst ok|e|file entries|m]; simpl in *;
    try (by exists c).
  - destruct (child_process.status res) as [[| |]|]; try (by exists c).
    destruct (ffmpeg_output args) as [o|]; [|by exists c].
    destruct (decide (o = out)) as [->|Hne].
    + exists (Video args). by rewrite lookup_insert_eq.
    + exists c. by rewrite lookup_insert_ne.
  - destruct ok; [|by exists c].
    destruct (decide (o = out)) as [->|Hne].
    + exists (Image j). rewrite lookup_insert_eq. by subst.
    + exists c. by rewrite lookup_insert_ne.
  - destruct ok; [|by exists c].
    destruct (decide (dst = out)) as [->|Hne].
    + exists (CopyOf src). rewrite lookup_insert_eq. by subst.
    + exists c. by rewrite lookup_insert_ne.
Qed.

Lemma replay_concerns f out t d :
  Forall (concerns f) t → holds_from f out d → holds_from f out (replay t d).
Proof.
  revert d. induction t as [|ev t IH]; intros d Hall Hd; [done|].
  apply Forall_cons in Hall as [Hev Hall]. simpl.
  apply IH; [done|]. by apply concerns_effect.
Qed.

Lemma replay_written f out t d :
  Forall (concerns f) t → Exists (wrote f out) t → holds_from f out (replay t d).
Proof.
  intros Hall Hex. revert d Hall.
  induction Hex as [ev t Hev|ev t _ IH]; intros d Hall;
    apply Forall_cons in Hall as [Hc Hall]; simpl.
  - apply replay_concerns; [done|]. by apply wrote_effect.
  - by apply IH.
Qed.

Lemma replay_wrote_is_Some f out t d :
  Exists (wrote f out) t → is_Some (replay t d !! out).
Proof.
  intros Hex. revert d.
  induction Hex as [ev t Hev|ev t _ IH]; intros d; simpl.
  - apply replay_mono. destruct (wrote_effect f out ev d Hev) as (c & -> & _). by eexists.
  - apply IH.
Qed.

(** ** The order of the batch *)

Lemma orderedFiles_perm files : orderedFiles files ≡ₚ files.
Proof.
  unfold orderedFiles, statics, gifs.
  rewrite (comm app).
  apply (filter_app_complement (λ f, Str.toLowerCase (path.extname f) = ".gif")).
Qed.

Lemma statics_not_gif files : Forall (λ f, isGif f = false) (statics files).
Proof.
  apply Forall_forall. intros f Hf. unfold statics in Hf.
  apply list_elem_of_filter in Hf as [Hf _]. by apply isGif_false.
Qed.

Lemma gifs_are_gif files : Forall (λ f, isGif f = true) (gifs files).
Proof.
  apply Forall_forall. intros f Hf. unfold gifs in Hf.
  apply list_elem_of_filter in Hf as [Hf _]. by apply isGif_true.
Qed.

Lemma entryOf_format f : format (entryOf f) = if isGif f then "webm" else "image".
Proof. unfold entryOf. by destruct (isGif f). Qed.

Lemma entryOf_original f : original (entryOf f) = rel f.
Proof. unfold entryOf. by destruct (isGif f). Qed.

Lemma entryOf_references f : references (entryOf f) = rel <$> outputsOf f.
Proof. unfold entryOf, outputsOf. by destruct (isGif f). Qed.

(** ** What a finished run looks like *)

Lemma run_summary env d s :
  final_state (run env d) = Some s →
  indexData s
  = entryOf <$> filter (λ f, encodes env f = true) (orderedFiles (glob env pattern))
  ∧ processed (trace s) = orderedFiles (glob env pattern)
  ∧ (glob env pattern ≠ [] → disk s !! indexFile = Some (ManifestJson (indexData s))).
Proof.
  pose proof (run_trace env d) as H.
  destruct (run env d) as [[] s'|e s'|c s'|]; simpl; intros [= <-]; try done.
  - destruct H as (Hne & pre & ts & Hq & Hts & Htr & Hidx & Hdisk).
    destruct Hq as (_ & Hpre & _).
    split_and!.
    + by rewrite Hidx, (items_pushes _ _ _ Hts).
    + rewrite Htr, !processed_app, Hpre, (items_processed _ _ _ Hts).
      simpl. by rewrite app_nil_r.
    + intros _. rewrite Hdisk. apply lookup_insert_eq.
  - destruct H as (_ & Hglob & _ & Hidx & Hq).
    destruct Hq as (_ & Hpre & _).
    rewrite Hglob, Hidx, Hpre. by split_and!.
Qed.

Lemma run_responsive env d :
  responsive env →
  match glob env pattern with
  | [] => ∃ s, run env d = Exit 0 s ∧ disk s = d ∧ indexData s = [] ∧ quiet (trace s)
  | _ :: _ =>
      ∃ s, run env d = Ok () s
        ∧ manifest_writes (trace s) = [indexFile]
        ∧ disk s !! indexFile = Some (ManifestJson (indexData s))
  end.
Proof.
  intros Hr. pose proof (run_trace env d) as H.
  destruct (run env d) as [[] s'|e s'|c s'|]; try done.
  - destruct H as (Hne & pre & ts & Hq & Hts & Htr & Hidx & Hdisk).
    destruct (glob env pattern); [done|].
    exists s'. split_and!; [done| |].
    + destruct Hq as (_ & _ & Hpre & _).
      rewrite Htr, !manifest_writes_app, Hpre, (items_manifest_writes _ _ _ Hts).
      reflexivity.
    + rewrite Hdisk. apply lookup_insert_eq.
  - destruct H as (-> & Hglob & Hd & Hidx & Hq). rewrite Hglob. by exists s'.
Qed.

(** ** Paths without a backslash *)

Lemma includes_app c s t :
  Str.includes c (s +:+ t) = Str.includes c s || Str.includes c t.
Proof. induction s as [|a s IH]; simpl; [done|]. by rewrite IH, orb_assoc. Qed.

Lemma split_includes c sep s :
  Str.includes c s = false →
  Forall (λ seg, Str.includes c seg = false) (Str.split sep s).
Proof.
  induction s as [|a s IH]; simpl; intros H.
  - by constructor.
  - apply orb_false_iff in H as [Ha Hs]. specialize (IH Hs).
    destruct (Ascii.eqb a sep); [by constructor|].
    destruct (Str.split sep s) as [|h t].
    + constructor; [|constructor]. simpl. by rewrite Ha.
    + apply Forall_cons in IH as [Hh Ht].
      constructor; [|done]. simpl. by rewrite Ha, Hh.
Qed.

Lemma last_segment_includes c p :
  Str.includes c p = false → Str.includes c (path.last_segment p) = false.
Proof.
  intros H. unfold path.last_segment.
  pose proof (split_includes c "/" p H) as HF.
  destruct (last (Str.split "/" p)) as [seg|] eqn:Hl; [|done].
  simpl. apply last_Some_elem_of in Hl.
  by apply (proj1 (Forall_forall _ _) HF).
Qed.

Lemma strip_suffix_includes c suf s stem :
  Str.strip_suffix suf s = Some stem →
  Str.includes c s = false → Str.includes c stem = false.
Proof.
  revert stem. induction s as [|a s IH]; intros stem; cbn [Str.strip_suffix].
  - destruct (String.eqb _ suf); [by intros [= <-]|done].
  - destruct (String.eqb _ suf); [by intros [= <-]|].
    destruct (Str.strip_suffix suf s) as [stem'|]; [|done].
    intros [= <-]. simpl. intros H.
    apply orb_false_iff in H as [-> Hs]. simpl. by apply IH.
Qed.

Lemma basename_includes c p suf :
  Str.includes c p = false → Str.includes c (path.basename p suf) = false.
Proof.
  intros H. unfold path.basename.
  pose proof (last_segment_includes c p H) as Hl.
  destruct (String.eqb suf EmptyString); [done|].
  destruct (String.eqb suf p); [done|].
  destruct (Str.strip_suffix suf (path.last_segment p)) as [stem|] eqn:Hs; [|done].
  destruct (String.eqb stem EmptyString); [done|].
  by eapply strip_suffix_includes.
Qed.

Lemma replace_backslashes_clean s :
  Str.includes Str.backslash s = false → Str.replace_backslashes s = s.
Proof.
  induction s as [|a s IH]; simpl; [done|]. intros H.
  apply orb_false_iff in H as [-> Hs]. by rewrite IH.
Qed.

Lemma rel_clean p : Str.includes Str.backslash p = false → rel p = p.
Proof. apply replace_backslashes_clean. Qed.

(** A backslash in [base] comes from the path. *)
Lemma base_clean f :
  Str.includes Str.backslash f = false → Str.includes Str.backslash (base f) = false.
Proof. apply basename_includes. Qed.

Lemma outputsOf_clean f :
  Str.includes Str.backslash (base f) = false →
  Forall (λ p, Str.includes Str.backslash p = false) (outputsOf f).
Proof.
  intros Hb.
  unfold outputsOf, optimizedWebM, thumbWebM, optimizedWebP, optimizedJPG,
    thumbWebP, thumbJPG, path.join, outDir, thumbDir.
  destruct (isGif f); repeat constructor; by rewrite !includes_app, Hb.
Qed.

Lemma references_clean f :
  Str.includes Str.backslash (base f) = false →
  references (entryOf f) = outputsOf f.
Proof.
  intros H. rewrite entryOf_references.
  pose proof (outputsOf_clean f H) as HF.
  induction HF as [|p l Hp _ IH]; [done|].
  rewrite fmap_cons, IH. by rewrite (rel_clean p Hp).
Qed.

(** C2, as the script has it.  A manifest entry exists only for a source
    file all of whose encodes reported success (the full WebM by one of
    the two profiles and the thumbnail WebM of a GIF; the four Sharp
    encodes of a static image), and it was pushed after the successful
    write of each variant file of that source; those files are on the disk
    when the run ends.  The entry stores the path of each variant file
    with every backslash turned into a slash: for a source file whose
    [base] name has no backslash the paths the entry references are the
    paths of the files written, each written before the push and on the
    disk at the end. *)
Theorem manifest_entries_follow_their_writes env d s :
  final_state (run env d) = Some s →
  ∀ e, e ∈ indexData s →
    ∃ file before after,
      file ∈ orderedFiles (glob env pattern)
      ∧ e = entryOf file
      ∧ encodes env file = true
      ∧ references e = rel <$> outputsOf file
      ∧ trace s = before ++ EvPush e :: after
      ∧ Forall (λ out, Exists (wrote file out) before ∧ is_Some (disk s !! out))
          (outputsOf file)
      ∧ (Str.includes Str.backslash (base file) = false →
         references e = outputsOf file
         ∧ Forall (λ p, Exists (wrote file p) before ∧ is_Some (disk s !! p))
             (references e)).
Proof.
  intros Hs e He.
  pose proof (run_trace env d) as H.
  destruct (run env d) as [[] s'|err s'|c s'|]; simpl in Hs;
    try done; injection Hs as ->.
  - destruct H as (Hne & pre & ts & Hq & Hts & Htr & Hidx & Hdisk).
    rewrite Hidx, (items_pushes _ _ _ Hts) in He.
    apply list_elem_of_fmap in He as (f & -> & Hf).
    apply list_elem_of_filter in Hf as [Henc Hf].
    destruct (items_split _ _ _ _ Hts Hf) as (t & c1 & c2 & Ht & Hc).
    destruct (it_after_writes _ _ _ Ht Henc) as (before & -> & Hw).
    assert (Forall (λ out, Exists (wrote f out) (pre ++ c1 ++ before)
                           ∧ is_Some (disk s !! out)) (outputsOf f)) as Hall.
    { eapply Forall_impl; [exact Hw|]. intros out Hout. split.
      - apply Exists_app. right. apply Exists_app. by right.
      - rewrite Hdisk. apply lookup_insert_is_Some'. right.
        apply (replay_wrote_is_Some f). rewrite Hc.
        apply Exists_app. right. apply Exists_app. left. apply Exists_app. by left. }
    exists f, (pre ++ c1 ++ before), (c2 ++ [EvWriteFile indexFile (indexData s);
                                             EvLog (Done (length (indexData s)))]).
    split_and!; try done.
    + apply entryOf_references.
    + rewrite Htr, Hc. by rewrite <- !app_assoc.
    + intros Hclean. by rewrite (references_clean f Hclean).
  - destruct H as (_ & _ & _ & Hidx & _). rewrite Hidx in He.
    by apply elem_of_nil in He.
Qed.

Lemma manifest_entries_follow_their_writes_witness :
  ∃ s, final_state (run Worlds.mixed_batch ∅) = Some s
    ∧ length (indexData s) = 3
    ∧ ∀ e, e ∈ indexData s →
        ∃ file before after,
          file ∈ orderedFiles (glob Worlds.mixed_batch pattern)
          ∧ e = entryOf file
          ∧ encodes Worlds.mixed_batch file = true
          ∧ trace s = before ++ EvPush e :: after
          ∧ references e = outputsOf file
          ∧ Forall (λ p, Exists (wrote file p) before ∧ is_Some (disk s !! p))
              (references e).
Proof.
  assert (∃ s, final_state (run Worlds.mixed_batch ∅) = Some s
               ∧ length (indexData s) = 3) as (s & Hs & Hlen).
  { eexists. split; vm_compute; reflexivity. }
  exists s. split; [exact Hs|]. split; [exact Hlen|].
  intros e He.
  destruct (manifest_entries_follow_their_writes Worlds.mixed_batch ∅ s Hs e He)
    as (file & before & after & Hin & Hentry & Henc & _ & Htr & _ & Hclean).
  exists file, before, after.
  assert (Str.includes Str.backslash (base file) = false) as Hfile.
  { apply list_elem_of_In in Hin. vm_compute in Hin.
    destruct Hin as [<-|[<-|[<-|[<-|[]]]]]; reflexivity. }
  destruct (Hclean Hfile) as [Href Hall].
  repeat (split; [assumption|]). exact Hall.
Defined.

(** C2 as stated does not hold for a source file with a backslash in its
    name, here [images/a\b.png]: the four Sharp encodes write the variant
    files under the name as it is, the entry is pushed with every
    backslash of their paths turned into a slash, and none of the four
    paths the entry references names a file of the disk. *)
Lemma entry_of_backslash_name_references_missing_files :
  ∃ s e,
    run Worlds.backslash_name ∅ = Ok () s
    ∧ indexData s = [e]
    ∧ e = entryOf ("images/a" +:+ String Str.backslash "b.png")
    ∧ Forall (λ out, is_Some (disk s !! out))
        (outputsOf ("images/a" +:+ String Str.backslash "b.png"))
    ∧ references e
      = ["images-optimized/a/b.webp"; "images-optimized/a/b.jpg";
         "images-thumbs/a/b.webp"; "images-thumbs/a/b.jpg"]
    ∧ Forall (λ p, disk s !! p = None) (references e).
Proof.
  eexists _, _. split; [vm_compute; reflexivity|].
  split; [reflexivity|]. split; [reflexivity|].
  split; [|split; [reflexivity|]].
  - vm_compute. repeat constructor; by eexists.
  - vm_compute. by repeat constructor.
Qed.

Lemma responsive_empty_root : responsive Worlds.empty_root.
Proof. intros cmd args. discriminate. Qed.

Lemma responsive_mixed_batch : responsive Worlds.mixed_batch.
Proof.
  intros cmd args. simpl.
  destruct (Worlds.mentions "images/broken.gif" args); discriminate.
Qed.

Lemma responsive_twins : responsive Worlds.twins.
Proof. intros cmd args. discriminate. Qed.











(** C6.  The batch is processed with every static image before every GIF,
    each kind in discovery order, and nothing else is moved: the files are
    processed in that order, and the manifest lists, in that same order,
    the files whose encodes went through, the static entries before the
    WebM entries. *)
Theorem manifest_in_processing_order env d :
  responsive env →
  (orderedFiles (glob env pattern) = statics (glob env pattern) ++ gifs (glob env pattern)
   ∧ Forall (λ f, isGif f = false) (statics (glob env pattern))
   ∧ Forall (λ f, isGif f = true) (gifs (glob env pattern))
   ∧ statics (glob env pattern) `sublist_of` glob env pattern
   ∧ gifs (glob env pattern) `sublist_of` glob env pattern
   ∧ orderedFiles (glob env pattern) ≡ₚ glob env pattern)
  ∧ ∃ s, final_state (run env d) = Some s
      ∧ processed (trace s) = orderedFiles (glob env pattern)
      ∧ indexData s
        = (entryOf <$> filter (λ f, encodes env f = true) (statics (glob env pattern)))
          ++ (entryOf <$> filter (λ f, encodes env f = true) (gifs (glob env pattern)))
      ∧ original <$> indexData s
        = rel <$> filter (λ f, encodes env f = true) (orderedFiles (glob env pattern))
      ∧ Forall (λ e, format e = "image")
          (entryOf <$> filter (λ f, encodes env f = true) (statics (glob env pattern)))
      ∧ Forall (λ e, format e = "webm")
          (entryOf <$> filter (λ f, encodes env f = true) (gifs (glob env pattern)))
      ∧ (glob env pattern ≠ [] →
         disk s !! indexFile = Some (ManifestJson (indexData s))).
Proof.
  intros Hr. split.
  - split_and!.
    + reflexivity.
    + apply statics_not_gif.
    + apply gifs_are_gif.
    + apply sublist_filter.
    + apply sublist_filter.
    + apply orderedFiles_perm.
  - pose proof (run_trace env d) as H.
    pose proof (run_summary env d) as Hsum.
    assert (∃ s, final_state (run env d) = Some s) as [s Hs].
    { destruct (run env d); try done; by eexists. }
    destruct (Hsum s Hs) as (Hi & Hp & Hm).
    exists s. split_and!; try done.
    + rewrite Hi. unfold orderedFiles. by rewrite filter_app, fmap_app.
    + rewrite Hi, <- list_fmap_compose. apply list_fmap_ext.
      intros i f _. apply entryOf_original.
    + apply Forall_fmap, Forall_forall. intros f Hf. simpl.
      apply list_elem_of_filter in Hf as [_ Hf].
      rewrite entryOf_format.
      by rewrite (proj1 (Forall_forall _ _) (statics_not_gif _) f Hf).
    + apply Forall_fmap, Forall_forall. intros f Hf. simpl.
      apply list_elem_of_filter in Hf as [_ Hf].
      rewrite entryOf_format.
      by rewrite (proj1 (Forall_forall _ _) (gifs_are_gif _) f Hf).
Qed.

Lemma manifest_in_processing_order_witness :
  ∃ s, final_state (run Worlds.mixed_batch ∅) = Some s
    ∧ processed (trace s)
      = ["images/2022-05-01_cat.png"; "images/photo.jpeg";
         "images/b/clip.gif"; "images/broken.gif"]
    ∧ original <$> indexData s
      = ["images/2022-05-01_cat.png"; "images/photo.jpeg"; "images/b/clip.gif"].
Proof.
  destruct (manifest_in_processing_order Worlds.mixed_batch ∅ responsive_mixed_batch)
    as (_ & s & Hs & Hp & _ & Ho & _).
  exists s. split; [exact Hs|]. split; [exact Hp | exact Ho].
Defined.

(** ** Colliding output names *)

Lemma base_stem f :
  Str.toLowerCase (path.extname f) = path.extname f → base f = stem f.
Proof. unfold base, stem. by intros ->. Qed.

Lemma outputsOf_base f1 f2 :
  isGif f1 = isGif f2 → base f1 = base f2 → outputsOf f1 = outputsOf f2.
Proof.
  intros Hk Hb. unfold outputsOf, optimizedWebM, thumbWebM, optimizedWebP,
    optimizedJPG, thumbWebP, thumbJPG. by rewrite Hk, Hb.
Qed.

Lemma entryOf_variants f1 f2 :
  isGif f1 = isGif f2 → base f1 = base f2 →
  optimized (entryOf f1) = optimized (entryOf f2)
  ∧ thumbnail (entryOf f1) = thumbnail (entryOf f2).
Proof.
  intros Hk Hb. unfold entryOf, optimizedWebM, thumbWebM, optimizedWebP,
    optimizedJPG, thumbWebP, thumbJPG. rewrite Hk, Hb. by destruct (isGif f2).
Qed.

(** C10, as the script has it.  Two source files of the same kind, with
    extensions in lower case and the same name once the extension is taken
    off, get the same variant paths.  When both encode, processing the
    second after the first leaves the second's content in every one of
    those files, and both manifest entries reference the same paths. *)
Theorem same_base_same_output_paths f1 f2 :
  isGif f1 = isGif f2 →
  Str.toLowerCase (path.extname f1) = path.extname f1 →
  Str.toLowerCase (path.extname f2) = path.extname f2 →
  stem f1 = stem f2 →
  outputsOf f1 = outputsOf f2
  ∧ optimized (entryOf f1) = optimized (entryOf f2)
  ∧ thumbnail (entryOf f1) = thumbnail (entryOf f2)
  ∧ (∀ env s,
       responsive env → encodes env f1 = true → encodes env f2 = true →
       ∃ s', forOf [f1; f2] (iteration env) s = Ok () s'
         ∧ indexData s' = indexData s ++ [entryOf f1; entryOf f2]
         ∧ Forall (λ out, holds_from f2 out (disk s')) (outputsOf f1))
  ∧ (∀ env d,
       responsive env → f1 ∈ glob env pattern → f2 ∈ glob env pattern →
       encodes env f1 = true → encodes env f2 = true →
       ∃ s, run env d = Ok () s
         ∧ entryOf f1 ∈ indexData s ∧ entryOf f2 ∈ indexData s).
Proof.
  intros Hk Hl1 Hl2 Hstem.
  assert (base f1 = base f2) as Hb by (by rewrite !base_stem).
  pose proof (outputsOf_base f1 f2 Hk Hb) as Hout.
  destruct (entryOf_variants f1 f2 Hk Hb) as [Ho Ht].
  split_and!; try done.
  - intros env s Hr He1 He2.
    pose proof (forOf_trace env [f1; f2] s) as H.
    destruct (forOf [f1; f2] (iteration env) s) as [[] s'| | |]; try done.
    destruct H as (ts & (Htr & Hidx & Hdisk & _) & Hts).
    apply Forall2_cons_inv_l in Hts as (t1 & ts' & Ht1 & Hts & ->).
    apply Forall2_cons_inv_l in Hts as (t2 & ts'' & Ht2 & Hts & ->).
    apply Forall2_nil_inv_l in Hts as ->.
    simpl in *. rewrite app_nil_r in *.
    exists s'. split_and!; [done| |].
    + by rewrite Hidx, pushes_app, (it_pushes _ _ _ Ht1), (it_pushes _ _ _ Ht2), He1, He2.
    + rewrite Hout, Hdisk, replay_app.
      destruct (it_after_writes _ _ _ Ht2 He2) as (before & Hb2 & Hw).
      eapply Forall_impl; [exact Hw|]. intros out Hex. simpl in Hex.
      apply replay_written; [apply (it_concerns _ _ _ Ht2)|].
      rewrite Hb2. apply Exists_app. by left.
  - intros env d Hr Hin1 Hin2 He1 He2.
    pose proof (run_responsive env d Hr) as H.
    destruct (glob env pattern) as [|f0 files] eqn:Hglob.
    { by apply elem_of_nil in Hin1. }
    destruct H as (s & Hrun & _). exists s. split; [done|].
    destruct (run_summary env d s) as (Hi & _); [by rewrite Hrun|].
    rewrite Hi, Hglob.
    split; apply list_elem_of_fmap_2, list_elem_of_filter;
      (split; [done|]); by rewrite orderedFiles_perm.
Qed.

Lemma same_base_same_output_paths_witness :
  outputsOf "images/a/cat.png" = outputsOf "images/b/cat.jpg"
  ∧ (∃ s', forOf ["images/a/cat.png"; "images/b/cat.jpg"] (iteration Worlds.twins) (initial ∅)
           = Ok () s'
       ∧ indexData s' = [entryOf "images/a/cat.png"; entryOf "images/b/cat.jpg"]
       ∧ Forall (λ out, holds_from "images/b/cat.jpg" out (disk s'))
           (outputsOf "images/a/cat.png"))
  ∧ (∃ s, run Worlds.twins ∅ = Ok () s
       ∧ entryOf "images/a/cat.png" ∈ indexData s
       ∧ entryOf "images/b/cat.jpg" ∈ indexData s).
Proof.
  destruct (same_base_same_output_paths "images/a/cat.png" "images/b/cat.jpg"
              eq_refl eq_refl eq_refl eq_refl) as (Hout & _ & _ & Hseq & Hrun).
  split; [exact Hout|]. split.
  - exact (Hseq Worlds.twins (initial ∅) responsive_twins eq_refl eq_refl).
  - apply (Hrun Worlds.twins ∅ responsive_twins); try reflexivity.
    + simpl. apply list_elem_of_here.
    + simpl. apply list_elem_of_further, list_elem_of_here.
Defined.

(** C10 as stated does not hold: a static image and a GIF of the same
    name share no variant path. *)
Lemma same_stem_of_different_kinds_do_not_collide :
  stem "images/cat.png" = stem "images/cat.gif"
  ∧ outputsOf "images/cat.png"
    = ["images-optimized/cat.webp"; "images-optimized/cat.jpg";
       "images-thumbs/cat.webp"; "images-thumbs/cat.jpg"]
  ∧ outputsOf "images/cat.gif" = ["images-optimized/cat.webm"; "images-thumbs/cat.webm"]
  ∧ outputsOf "images/cat.png" ≠ outputsOf "images/cat.gif".
Proof. split_and!; try reflexivity. discriminate. Qed.

(** An extension in upper case stays in [base], since [path.basename] is
    given the lower-cased extension to strip. *)
Example upper_case_extension_stays :
  base "images/photo.PNG" = "photo.PNG"
  ∧ stem "images/photo.PNG" = "photo"
  ∧ outputsOf "images/photo.PNG"
    = ["images-optimized/photo.PNG.webp"; "images-optimized/photo.PNG.jpg";
       "images-thumbs/photo.PNG.webp"; "images-thumbs/photo.PNG.jpg"].
Proof. by split_and!. Qed.

(** ** The encoder's time budget *)

(** C1 (defect).  [runCmd] has no use for what a call passes after [cmd]
    and [args], so the [{ timeout: MAX_FFMPEG_MS }] of the three encoder
    calls never reaches [spawnSync]: a never-ending encode blocks the run
    for ever, although [spawnSync] given that option would have returned,
    and an encode that takes two minutes is taken as a success. *)
Theorem encoder_timeout_is_dropped :
  (∀ env cmd args surplus, runCmd env cmd args surplus = runCmd env cmd args [])
  ∧ child_process.timeout withTimeout = Some 90000%N
  ∧ child_process.spawnSync child_process.Hangs withTimeout = Some child_process.killed
  ∧ child_process.spawnSync child_process.Hangs encodingOnly = None
  ∧ run Worlds.stuck_encoder ∅ = Diverge
  ∧ (∃ s, run Worlds.slow_encoder ∅ = Ok () s
       ∧ indexData s = [entryOf "images/party.gif"]).
Proof.
  split_and!; try reflexivity.
  eexists. split; [vm_compute; reflexivity | reflexivity].
Qed.

(** ** The GIF fallback without an encoder *)

(** C5 (defect).  When ffmpeg cannot be started, both encode attempts
    fail with a null [stderr]; reading [r.stderr.slice] then throws before
    the copy of the original, and the iteration's [catch] takes over: the
    two profiles have been tried in order, no thumbnail is attempted, no
    entry is pushed, but the original is not copied to the full tier. *)
Theorem gif_fallback_copy_is_skipped_without_encoder :
  ∃ s, run Worlds.no_ffmpeg ∅ = Ok () s
    ∧ spawned (trace s)
      = [ ["-version"];
          vp9Args "images/party.gif" "images-optimized/party.webm";
          vp8Args "images/party.gif" "images-optimized/party.webm" ]
    ∧ EvLog (ErrorProcessing "images/party.gif" (TypeError "r.stderr")) ∈ trace s
    ∧ copies (trace s) = []
    ∧ disk s !! fallbackGif "images/party.gif" = None
    ∧ indexData s = [].
Proof.
  eexists. split; [vm_compute; reflexivity|].
  split_and!; try reflexivity.
  do 9 apply list_elem_of_further. apply list_elem_of_here.
Qed.

(** The fallback as intended, when the encoder runs and fails: two
    attempts, then the copy, no thumbnail attempt and no entry. *)
Lemma gif_fallback_chain env f s :
  responsive env → isGif f = true →
  vp9Ok env f = false → vp8Ok env f = false →
  started env (vp8Args f (optimizedWebM f)) = true →
  ∃ s' t, iteration env f s = Ok () s'
    ∧ advances s s' t
    ∧ spawned t = [vp9Args f (optimizedWebM f); vp8Args f (optimizedWebM f)]
    ∧ copies t = [(f, fallbackGif f)]
    ∧ pushes t = [].
Proof.
  intros Hr Hg H9 H8 Hst.
  pose proof (iteration_trace env f s) as H.
  destruct (iteration env f s) as [[] s'| | |]; try done; [|by destruct H].
  destruct H as (t & Hadv & Ht). exists s', t. split_and!; try done.
  - by rewrite (it_spawned _ _ _ Ht), Hg; unfold gifInvocations; rewrite H9, H8.
  - by rewrite (it_copies _ _ _ Ht), Hg, H9, H8, Hst.
  - rewrite (it_pushes _ _ _ Ht). unfold encodes. by rewrite Hg, H9, H8.
Qed.

(** ** The full tier of a static image *)

(** What the script fixes of the full tier: the two full-tier encodes of a
    static image are the ones started on the source file with
    [{ width: 1600, withoutEnlargement: true }].  The dimensions of the
    output are computed by Sharp. *)
Lemma full_tier_options env f j out :
  (j, out) ∈ staticEncodes env f →
  out = optimizedWebP f ∨ out = optimizedJPG f →
  sharp.input j = f ∧ sharp.resize j = sharp.ResizeWidth 1600 true.
Proof.
  intros Hin Hout. unfold staticEncodes in Hin.
  apply elem_of_app in Hin as [Hin|Hin].
  - apply elem_of_cons in Hin as [[= -> ->]|Hin]; [done|].
    apply elem_of_cons in Hin as [[= -> ->]|Hin]; [done|].
    by apply elem_of_nil in Hin.
  - destruct (_ && _); [|by apply elem_of_nil in Hin].
    exfalso.
    apply elem_of_cons in Hin as [[= -> ->]|Hin];
      [|apply elem_of_cons in Hin as [[= -> ->]|Hin];
        [|by apply elem_of_nil in Hin]].
    all: unfold thumbWebP, thumbJPG, optimizedWebP, optimizedJPG, path.join,
           thumbDir, outDir in Hout.
    all: destruct Hout as [Hout|Hout]; cbv [String.append] in Hout; discriminate Hout.
Qed.
